(** * QR-DQN agent (src/agents/qr_dqn_agent.py): a shallow embedding.

    Tensors are modelled as (nested) lists of rationals [Q]; the float
    arithmetic of torch is read as exact rational arithmetic.  The
    network (QRCNN), the Adam optimizer and the prioritized replay buffer
    are external collaborators: they appear as variables of a Section,
    through the operations the agent calls on them. *)

From Stdlib Require Import String.
From Stdlib Require Import QArith Qabs Qround Qminmax Lqa List Lia ZArith Sorted.
Import ListNotations.
Open Scope Q_scope.

(** ** Tensor helpers *)

Fixpoint zip_with {A B C : Type} (f : A -> B -> C) (l1 : list A) (l2 : list B)
  : list C :=
  match l1, l2 with
  | x :: r1, y :: r2 => f x y :: zip_with f r1 r2
  | _, _ => []
  end.

Definition qsum (l : list Q) : Q := fold_right Qplus 0 l.

Definition Q_of_nat (n : nat) : Q := inject_Z (Z.of_nat n).

(** [tensor.mean(dim)] along one axis. *)
Definition mean (l : list Q) : Q := qsum l / Q_of_nat (length l).

(** [(x < 0.0).float()] *)
Definition lt_float (x y : Q) : Q := if Qlt_le_dec x y then 1 else 0.

(** ** [QRDQNAgent.huber] (lines 195-201) *)

Definition huber_k (k x : Q) : Q :=
  let cond := lt_float (Qabs x) k in
  (1#2) * cond * (x * x) + (1 - cond) * k * (Qabs x - (1#2) * k).

Definition huber (x : Q) : Q := huber_k 1 x.

(** ** [tensor.quantile(q, dim)] with torch's default linear interpolation:
    sort, rank [q * (n - 1)], interpolate between the values at the floor
    and the ceiling of the rank. *)

Fixpoint insert_sorted (x : Q) (l : list Q) : list Q :=
  match l with
  | [] => [x]
  | y :: r => if Qle_bool x y then x :: l else y :: insert_sorted x r
  end.

Fixpoint sort_asc (l : list Q) : list Q :=
  match l with
  | [] => []
  | x :: r => insert_sorted x (sort_asc r)
  end.

(** [torch.lerp(start, end, weight)] *)
Definition lerp (a b w : Q) : Q := a + w * (b - a).

Definition quantile (q : Q) (row : list Q) : Q :=
  let sorted := sort_asc row in
  let ranks := q * (Q_of_nat (length row) - 1) in
  let ranks_below := Qfloor ranks in
  let ranks_above := Qceiling ranks in
  let values_below := nth (Z.to_nat ranks_below) sorted 0 in
  let values_above := nth (Z.to_nat ranks_above) sorted 0 in
  lerp values_below values_above (ranks - inject_Z ranks_below).

(** [tensor.argmax(dim)]: index of the first maximal value. *)
Fixpoint argmax_from (l : list Q) (i best : nat) (bv : Q) : nat :=
  match l with
  | [] => best
  | x :: r =>
      if Qlt_le_dec bv x then argmax_from r (S i) i x
      else argmax_from r (S i) best bv
  end.

Definition argmax (l : list Q) : nat :=
  match l with
  | [] => 0
  | x :: r => argmax_from r 1 0 x
  end.

(** The per-action reduction of [choose_action] (lines 78-85); [None] is
    the [raise ValueError] branch. *)
Definition reduction (risk_preference : string) : option (list Q -> Q) :=
  if String.eqb risk_preference "neutral" then Some mean
  else if String.eqb risk_preference "risk-averse" then Some (quantile (1#10))
  else if String.eqb risk_preference "risk-seeking" then Some (quantile (9#10))
  else None.

(** ** [torch.linspace] (ATen fills the first half forwards from [start]
    and the second half backwards from [end]) and [tau_hat] (line 62). *)

Definition linspace (start end_ : Q) (steps : nat) : list Q :=
  match steps with
  | 1%nat => [start]
  | _ =>
      let step := (end_ - start) / (Q_of_nat steps - 1) in
      let halfway := Nat.div steps 2 in
      map (fun idx =>
             if Nat.ltb idx halfway then start + step * Q_of_nat idx
             else end_ - step * Q_of_nat (steps - idx - 1))
          (seq 0 steps)
  end.

(** [torch.linspace(0.0, 1.0, num_quantiles+1)[:-1] + 0.5 / num_quantiles] *)
Definition tau_hat_of (num_quantiles : nat) : list Q :=
  map (fun x => x + (1#2) / Q_of_nat num_quantiles)
      (removelast (linspace 0 1 (num_quantiles + 1))).

(** ** Quantile Huber loss (lines 172-185) *)

(** One batch element: [t] the targets, [p] the predicted quantiles of the
    taken action.  [pairwise_delta[x][y] = t[y] - p[x]]
    ([targets.unsqueeze(1) - quantiles_pred_chosen.unsqueeze(-1)]), and
    [tau_hat.view(1,-1,1)] broadcasts [tau_hat[x]] along row [x]. *)
Definition element_loss (tau_hat : list Q) (t p : list Q) : Q :=
  let pairwise_delta := map (fun px => map (fun ty => ty - px) t) p in
  let huber_loss := map (map huber) pairwise_delta in
  let indicator := map (map (fun d => lt_float d 0)) pairwise_delta in
  let quantile_weights :=
    zip_with (fun tx row => map (fun ind => Qabs (tx - ind)) row)
             tau_hat indicator in
  (* (quantile_weights * huber_loss).mean(dim=2).mean(dim=1) *)
  mean (map mean (zip_with (zip_with Qmult) quantile_weights huber_loss)).

(** [loss] per batch element, then [(weights_t * loss).mean()]. *)
Definition batch_loss (tau_hat : list Q) (targets preds : list (list Q))
  : list Q :=
  zip_with (element_loss tau_hat) targets preds.

Definition weighted_loss (tau_hat : list Q) (targets preds : list (list Q))
    (weights : list Q) : Q :=
  mean (zip_with Qmult weights (batch_loss tau_hat targets preds)).

(** [torch.abs(targets - quantiles_pred_chosen).mean(dim=1)] *)
Definition td_errors (targets preds : list (list Q)) : list Q :=
  zip_with (fun t p => mean (map Qabs (zip_with Qminus t p))) targets preds.

(** Python's [min(1.0, x)]: the first argument unless the second is
    smaller. *)
Definition py_min (a b : Q) : Q := if Qlt_le_dec b a then b else a.

(** ** Agent state *)

Record Agent (Params OptState Buffer : Type) := mkAgent {
  num_actions : nat;
  num_quantiles : nat;
  gamma : Q;
  batch_size : nat;
  epsilon : Q;
  beta : Q;
  beta_increment : Q;
  online_net : Params;
  target_net : Params;
  optimizer : OptState;
  replay_buffer : Buffer;
  tau_hat : list Q
}.

Arguments mkAgent {Params OptState Buffer}.
Arguments num_actions {Params OptState Buffer}.
Arguments num_quantiles {Params OptState Buffer}.
Arguments gamma {Params OptState Buffer}.
Arguments batch_size {Params OptState Buffer}.
Arguments epsilon {Params OptState Buffer}.
Arguments beta {Params OptState Buffer}.
Arguments beta_increment {Params OptState Buffer}.
Arguments online_net {Params OptState Buffer}.
Arguments target_net {Params OptState Buffer}.
Arguments optimizer {Params OptState Buffer}.
Arguments replay_buffer {Params OptState Buffer}.
Arguments tau_hat {Params OptState Buffer}.

(** What [replay_buffer.sample(batch_size, beta)] returns. *)
Record Batch (Obs : Type) := mkBatch {
  b_states : list Obs;
  b_actions : list nat;
  b_rewards : list Q;
  b_next_states : list Obs;
  b_dones : list bool;
  b_indices : list nat;
  b_weights : list Q
}.

Arguments mkBatch {Obs}.
Arguments b_states {Obs}.
Arguments b_actions {Obs}.
Arguments b_rewards {Obs}.
Arguments b_next_states {Obs}.
Arguments b_dones {Obs}.
Arguments b_indices {Obs}.
Arguments b_weights {Obs}.

(** Calls [train_step] makes on its collaborators, in order. *)
Inductive effect :=
  | ESample (n : nat) (beta : Q)
  | EOptimizerStep
  | EUpdatePriorities (indices : list nat) (errors : list Q).

(** Outcome of [choose_action]: an action, or [raise ValueError]. *)
Inductive action_result :=
  | Action (a : nat)
  | ValueError.

Section QRDQN.

Variables Obs Params OptState Buffer : Type.

(** [net(params)(x)]: the QRCNN forward pass on one image, a
    (num_actions x num_quantiles) tensor as a list of rows. *)
Variable net : Params -> Obs -> list (list Q).

(** [len(replay_buffer)], [replay_buffer.sample(n, beta)] and
    [replay_buffer.update_priorities(indices, errors)]. *)
Variable buffer_len : Buffer -> nat.
Variable buffer_sample : Buffer -> nat -> Q -> Batch Obs.
Variable buffer_update_priorities : Buffer -> list nat -> list Q -> Buffer.

(** [optimizer.zero_grad(); loss.backward(); optimizer.step()]: one Adam
    update of the online parameters for the loss, seen as a function of
    the online parameters. *)
Variable adam_step : OptState -> Params -> (Params -> Q) -> Params * OptState.


(** [__init__]: the target net loads the online net's state dict. *)
Definition init_agent (num_actions num_quantiles : nat) (gamma : Q)
    (batch_size : nat) (epsilon_start beta_start beta_increment : Q)
    (online0 : Params) (opt0 : OptState) (buffer0 : Buffer) : Agent Params OptState Buffer :=
  mkAgent num_actions num_quantiles gamma batch_size epsilon_start
    beta_start beta_increment online0 online0 opt0 buffer0
    (tau_hat_of num_quantiles).

(** [choose_action(state, risk_preference)]; [u] is the draw of
    [random.random()] and [sampled] that of [env.action_space.sample()]. *)
Definition choose_action (ag : Agent Params OptState Buffer) (u : Q) (sampled : nat) (state : Obs)
    (risk_preference : string) : action_result :=
  if Qlt_le_dec u (epsilon ag) then Action sampled
  else
    let quantiles := net (online_net ag) state in
    match reduction risk_preference with
    | Some reduce =>
        let q_values := map reduce quantiles in
        Action (argmax q_values)
    | None => ValueError
    end.

(** [update_target_network]: [target_net.load_state_dict(online_net.state_dict())]. *)
Definition update_target_network (ag : Agent Params OptState Buffer)
  : Agent Params OptState Buffer :=
  mkAgent (num_actions ag) (num_quantiles ag) (gamma ag) (batch_size ag)
    (epsilon ag) (beta ag) (beta_increment ag) (online_net ag)
    (online_net ag) (optimizer ag) (replay_buffer ag) (tau_hat ag).

(** [quantiles_pred.gather(dim=1, index=actions ...)]: the row of the
    stored action, per batch element. *)
Definition gather_rows (quantiles : list (list (list Q))) (idx : list nat)
  : list (list Q) :=
  zip_with (fun rows a => nth a rows []) quantiles idx.

(** Step 2 of [train_step] (lines 125-169), under [torch.no_grad()]. *)
Definition bellman_targets (gamma : Q) (online target : Params)
    (next_states : list Obs) (rewards : list Q) (dones : list bool)
  : list (list Q) :=
  let next_quantiles_online := map (net online) next_states in
  let next_q_online_mean := map (map mean) next_quantiles_online in
  let best_actions := map argmax next_q_online_mean in
  let next_quantiles_target := map (net target) next_states in
  let next_quantiles_target_chosen :=
    gather_rows next_quantiles_target best_actions in
  let dones_t := map (fun d : bool => if d then 1 else 0) dones in
  let temp1 := map (fun d => 1 - d) dones_t in
  let temp2 := map (fun x => x * gamma) temp1 in
  let temp3 :=
    zip_with (fun t2 row => map (fun z => t2 * z) row)
             temp2 next_quantiles_target_chosen in
  zip_with (fun r row => map (fun z => r + z) row) rewards temp3.

(** [train_step] (lines 92-193). *)
Definition train_step (ag : Agent Params OptState Buffer) : Agent Params OptState Buffer * list effect :=
  if Nat.ltb (buffer_len (replay_buffer ag)) (batch_size ag) then (ag, [])
  else
    let b := buffer_sample (replay_buffer ag) (batch_size ag) (beta ag) in
    let beta' := py_min 1 (beta ag + beta_increment ag) in
    let quantiles_pred_chosen p :=
      gather_rows (map (net p) (b_states b)) (b_actions b) in
    let targets :=
      bellman_targets (gamma ag) (online_net ag) (target_net ag)
        (b_next_states b) (b_rewards b) (b_dones b) in
    let loss_fn p :=
      weighted_loss (tau_hat ag) targets (quantiles_pred_chosen p)
        (b_weights b) in
    let stepped := adam_step (optimizer ag) (online_net ag) loss_fn in
    let errors := td_errors targets (quantiles_pred_chosen (online_net ag)) in
    let buffer' :=
      buffer_update_priorities (replay_buffer ag) (b_indices b) errors in
    (mkAgent (num_actions ag) (num_quantiles ag) (gamma ag) (batch_size ag)
       (epsilon ag) beta' (beta_increment ag) (fst stepped)
       (target_net ag) (snd stepped) buffer' (tau_hat ag),
     [ESample (batch_size ag) (beta ag); EOptimizerStep;
      EUpdatePriorities (b_indices b) errors]).

(** [n] successive calls of [train_step]. *)
Fixpoint train_steps (n : nat) (ag : Agent Params OptState Buffer)
  : Agent Params OptState Buffer :=
  match n with
  | O => ag
  | S k => train_steps k (fst (train_step ag))
  end.

End QRDQN.

Arguments init_agent {Params OptState Buffer}.
Arguments choose_action {Obs Params OptState Buffer}.
Arguments update_target_network {Params OptState Buffer}.
Arguments bellman_targets {Obs Params}.
Arguments train_step {Obs Params OptState Buffer}.
Arguments train_steps {Obs Params OptState Buffer}.


(** ** Reference formulations of the quantile Huber loss

    Index form, [sum_upto n f = f 0 + ... + f (n-1)]. *)
Fixpoint sum_upto (n : nat) (f : nat -> Q) : Q :=
  match n with
  | O => 0
  | S m => sum_upto m f + f m
  end.

(** Pinball-weighted Huber value of one difference [d] at midpoint [tau]. *)
Definition pinball_huber (tau d : Q) : Q := Qabs (tau - lt_float d 0) * huber d.

(** With [delta(i,j) = t[i] - p[j]] ([i] the target index, [j] the
    predicted index): the weight takes the midpoint of the PREDICTED index
    [j]; the mean runs over [i] inside and over [j] outside. *)
Definition element_loss_by_pred_tau (n : nat) (tau t p : list Q) : Q :=
  sum_upto n (fun j =>
    sum_upto n (fun i =>
      pinball_huber (nth j tau 0) (nth i t 0 - nth j p 0)) / Q_of_nat n)
  / Q_of_nat n.

(** The loss as the spec words it: the weight takes the midpoint of the
    TARGET index [i]; the mean runs over [j] inside and over [i] outside. *)
Definition element_loss_spec (n : nat) (tau t p : list Q) : Q :=
  sum_upto n (fun i =>
    sum_upto n (fun j =>
      pinball_huber (nth i tau 0) (nth i t 0 - nth j p 0)) / Q_of_nat n)
  / Q_of_nat n.

(** ** [get_risk_preference_from_rewards] (lines 204-212) *)
Definition get_risk_preference_from_rewards (recent_rewards : list Q)
    (threshold : Q) : string :=
  if Nat.eqb (length recent_rewards) 0 then "neutral"
  else
    let average_reward := mean recent_rewards in
    if Qlt_le_dec average_reward threshold then "risk-seeking"
    else "risk-averse".

(** ** A concrete agent, for evaluating the operations *)

(** A network with three actions and three quantiles whose three rows have
    the same mean. *)
Definition demo_net (params : unit) (state : unit) : list (list Q) :=
  [[1; 2; 3]; [3; 1; 2]; [0; 5; 1]].

Definition demo_agent (eps : Q) : Agent unit unit unit :=
  mkAgent 3 3 (99#100) 32 eps (2#5) (1#1000) tt tt tt tt (tau_hat_of 3).

(** An empty replay buffer of size [n] and stub collaborators. *)
Definition demo_buffer_len (n : nat) (buf : unit) : nat := n.

Definition demo_sample (buf : unit) (n : nat) (beta : Q) : Batch unit :=
  mkBatch [tt] [0%nat] [0] [tt] [true] [0%nat] [1].

Definition demo_update_priorities (buf : unit) (idx : list nat) (errs : list Q)
  : unit := buf.

Definition demo_adam (opt : unit) (params : unit) (loss : unit -> Q)
  : unit * unit := (params, opt).

(** * Theorems *)

(** ** List and sum lemmas *)

Lemma list_as_seq_map {A : Type} (l : list A) (d : A) :
  l = map (fun k => nth k l d) (seq 0 (length l)).
Proof.
  induction l as [|a l IH]; [reflexivity|].
  simpl. f_equal. rewrite <- seq_shift, map_map. exact IH.
Qed.

Lemma zip_with_map {A B C D : Type} (f : B -> C -> D) (g : A -> B)
    (h : A -> C) (l : list A) :
  zip_with f (map g l) (map h l) = map (fun x => f (g x) (h x)) l.
Proof. induction l as [|a l IH]; simpl; [reflexivity|]. now rewrite IH. Qed.

Lemma qsum_app (l1 l2 : list Q) : qsum (l1 ++ l2) == qsum l1 + qsum l2.
Proof.
  induction l1 as [|a l1 IH]; simpl.
  - ring.
  - unfold qsum in *. simpl. rewrite IH. ring.
Qed.

Lemma qsum_seq (n : nat) (f : nat -> Q) :
  qsum (map f (seq 0 n)) == sum_upto n f.
Proof.
  induction n as [|n IH]; [reflexivity|].
  rewrite seq_S, map_app, qsum_app, IH. simpl. unfold qsum. simpl. ring.
Qed.

Lemma sum_upto_ext (n : nat) (f g : nat -> Q) :
  (forall k, (k < n)%nat -> f k == g k) -> sum_upto n f == sum_upto n g.
Proof.
  induction n as [|n IH]; intros H; simpl; [reflexivity|].
  rewrite IH by (intros; apply H; lia). rewrite (H n) by lia. reflexivity.
Qed.

Lemma mean_seq (n : nat) (f : nat -> Q) :
  mean (map f (seq 0 n)) == sum_upto n f / Q_of_nat n.
Proof.
  unfold mean. rewrite length_map, length_seq, qsum_seq. reflexivity.
Qed.

(** ** C1: the quantile Huber loss of [train_step] *)

Lemma nth_map_seq {A : Type} (f : nat -> A) (n j : nat) (d : A) :
  (j < n)%nat -> nth j (map f (seq 0 n)) d = f j.
Proof.
  intros Hj. rewrite nth_indep with (d' := f 0%nat) by (rewrite length_map, length_seq; exact Hj).
  rewrite map_nth, seq_nth by exact Hj. reflexivity.
Qed.

Lemma element_loss_rows (tau t p : list Q) :
  element_loss tau t p =
  mean (map mean
    (zip_with (fun tx px => map (fun ty => pinball_huber tx (ty - px)) t)
       tau p)).
Proof.
  unfold element_loss. f_equal. f_equal.
  revert tau. induction p as [|px p IH]; intros [|tx tau]; try reflexivity.
  simpl. rewrite IH. f_equal.
  clear IH. induction t as [|ty t IHt]; [reflexivity|].
  simpl. rewrite IHt. reflexivity.
Qed.

Lemma element_loss_index (n : nat) (tau t p : list Q) :
  length tau = n -> length t = n -> length p = n ->
  element_loss tau t p == element_loss_by_pred_tau n tau t p.
Proof.
  intros Htau Ht Hp. rewrite element_loss_rows.
  rewrite (list_as_seq_map tau 0), (list_as_seq_map p 0), Htau, Hp.
  rewrite zip_with_map, map_map, mean_seq.
  unfold element_loss_by_pred_tau.
  apply Qdiv_comp; [|reflexivity].
  apply sum_upto_ext. intros j Hj.
  rewrite (list_as_seq_map t 0) at 1. rewrite Ht, map_map, mean_seq.
  rewrite !nth_map_seq by exact Hj. reflexivity.
Qed.

Lemma zip_with_seq {A B C : Type} (f : A -> B -> C) (l1 : list A)
    (l2 : list B) (n : nat) (d1 : A) (d2 : B) :
  length l1 = n -> length l2 = n ->
  zip_with f l1 l2 = map (fun k => f (nth k l1 d1) (nth k l2 d2)) (seq 0 n).
Proof.
  intros H1 H2.
  rewrite (list_as_seq_map l1 d1) at 1. rewrite (list_as_seq_map l2 d2) at 1.
  rewrite H1, H2, zip_with_map. reflexivity.
Qed.

(** C1 (amended).  For a batch of [B] elements with [n] quantiles, and
    [delta(b,i,j) = target[b][i] - predicted[b][j]], the loss of batch
    element [b] is the mean over the predicted index [j] of the mean over
    the target index [i] of [|tau_hat[j] - 1{delta < 0}| * huber(delta)]:
    the pinball weight takes the midpoint of the PREDICTED quantile.  The
    scalar loss is [mean_b (IS_weight[b] * loss[b])]. *)
Theorem quantile_huber_loss_by_predicted_tau
    (n B : nat) (tau : list Q) (targets preds : list (list Q))
    (weights : list Q) :
  length tau = n -> length targets = B -> length preds = B ->
  length weights = B ->
  (forall b, (b < B)%nat ->
     length (nth b targets []) = n /\ length (nth b preds []) = n) ->
  (forall b, (b < B)%nat ->
     nth b (batch_loss tau targets preds) 0 ==
     element_loss_by_pred_tau n tau (nth b targets []) (nth b preds [])) /\
  weighted_loss tau targets preds weights ==
  sum_upto B (fun b =>
    nth b weights 0 *
    element_loss_by_pred_tau n tau (nth b targets []) (nth b preds []))
  / Q_of_nat B.
Proof.
  intros Htau Ht Hp Hw Hrows.
  unfold weighted_loss, batch_loss.
  rewrite (zip_with_seq (element_loss tau) targets preds B [] []) by assumption.
  split.
  - intros b Hb. rewrite nth_map_seq by exact Hb.
    destruct (Hrows b Hb). apply element_loss_index; assumption.
  - rewrite (list_as_seq_map weights 0) at 1. rewrite Hw, zip_with_map, mean_seq.
    apply Qdiv_comp; [|reflexivity].
    apply sum_upto_ext. intros b Hb.
    destruct (Hrows b Hb). rewrite element_loss_index by eassumption.
    reflexivity.
Qed.

Lemma quantile_huber_loss_by_predicted_tau_witness :
  (length (tau_hat_of 2) = 2%nat /\ length [[0;0]] = 1%nat /\
   length [[0;1]] = 1%nat /\ length [1] = 1%nat /\
   (forall b, (b < 1)%nat ->
      length (nth b [[0;0]] []) = 2%nat /\ length (nth b [[0;1]] []) = 2%nat)) /\
  ((forall b, (b < 1)%nat ->
     nth b (batch_loss (tau_hat_of 2) [[0;0]] [[0;1]]) 0 ==
     element_loss_by_pred_tau 2 (tau_hat_of 2) (nth b [[0;0]] []) (nth b [[0;1]] [])) /\
   weighted_loss (tau_hat_of 2) [[0;0]] [[0;1]] [1] ==
   sum_upto 1 (fun b =>
     nth b [1] 0 *
     element_loss_by_pred_tau 2 (tau_hat_of 2) (nth b [[0;0]] []) (nth b [[0;1]] []))
   / Q_of_nat 1).
Proof.
  assert (Hr : forall b, (b < 1)%nat ->
      length (nth b [[0;0]] []) = 2%nat /\ length (nth b [[0;1]] []) = 2%nat)
    by (intros b Hb; destruct b; [split; reflexivity | lia]).
  split.
  - refine (conj eq_refl (conj eq_refl (conj eq_refl (conj eq_refl Hr)))).
  - apply (quantile_huber_loss_by_predicted_tau 2 1); try reflexivity. exact Hr.
Defined.

(** C1 (counterexample).  With two quantiles ([tau_hat = [1/4; 3/4]]),
    targets [[0; 0]] (reward 0 on a terminal transition) and predicted
    quantiles [[0; 1]], the loss computed by [train_step] is 1/16, while
    the weighting by the target index gives 1/8. *)
Lemma quantile_huber_loss_target_tau_counterexample :
  nth 0 (batch_loss (tau_hat_of 2) [[0;0]] [[0;1]]) 0 == 1#16 /\
  element_loss_spec 2 (tau_hat_of 2) [0;0] [0;1] == 1#8 /\
  ~ (nth 0 (batch_loss (tau_hat_of 2) [[0;0]] [[0;1]]) 0 ==
     element_loss_spec 2 (tau_hat_of 2) [0;0] [0;1]).
Proof.
  split; [vm_compute; reflexivity|]. split; [vm_compute; reflexivity|].
  intro H. vm_compute in H. discriminate H.
Qed.

(** ** C10: the Huber function *)

(** C10.  [huber] (threshold k = 1) is even, non-negative, and zero
    exactly at zero. *)
Theorem huber_even_nonneg_zero (x : Q) :
  huber x == huber (- x) /\ 0 <= huber x /\ (huber x == 0 <-> x == 0).
Proof.
  assert (Hopp : Qabs (- x) == Qabs x) by apply Qabs_opp.
  unfold huber, huber_k, lt_float.
  destruct (Qlt_le_dec (Qabs x) 1) as [H1|H1];
  destruct (Qlt_le_dec (Qabs (- x)) 1) as [H2|H2]; try lra;
  rewrite Hopp; revert H1 H2 Hopp; apply Qabs_case; intros Ha H1 H2 Hopp;
  repeat split; intros; try nra.
Qed.

(** ** C8: the quantile midpoints [tau_hat] *)

Lemma Q_of_nat_lt (a b : nat) : (a < b)%nat -> Q_of_nat a < Q_of_nat b.
Proof. intros H. unfold Q_of_nat. rewrite <- Zlt_Qlt. lia. Qed.

Lemma Q_of_nat_le (a b : nat) : (a <= b)%nat -> Q_of_nat a <= Q_of_nat b.
Proof. intros H. unfold Q_of_nat. rewrite <- Zle_Qle. lia. Qed.

Lemma Q_of_nat_sub (a b : nat) :
  (b <= a)%nat -> Q_of_nat (a - b) == Q_of_nat a - Q_of_nat b.
Proof.
  intros H. unfold Q_of_nat. rewrite Nat2Z.inj_sub by exact H.
  unfold Z.sub. rewrite inject_Z_plus, inject_Z_opp. reflexivity.
Qed.

Lemma Q_of_nat_succ (a : nat) : Q_of_nat (S a) == Q_of_nat a + 1.
Proof.
  unfold Q_of_nat. rewrite Nat2Z.inj_succ. unfold Z.succ.
  rewrite inject_Z_plus. reflexivity.
Qed.

Lemma removelast_map_seq {A : Type} (f : nat -> A) (n : nat) :
  removelast (map f (seq 0 (S n))) = map f (seq 0 n).
Proof. rewrite seq_S, map_app. apply removelast_last. Qed.

(** Both halves of [linspace] hit [start + (end - start) * i / (steps - 1)]. *)
Lemma linspace_nth (s e : Q) (m i : nat) :
  (i < S (S m))%nat ->
  nth i (linspace s e (S (S m))) 0 ==
  s + (e - s) * Q_of_nat i / (Q_of_nat (S (S m)) - 1).
Proof.
  intros Hi.
  assert (Hpos : 0 < Q_of_nat (S (S m)) - 1).
  { rewrite Q_of_nat_succ. pose proof (Q_of_nat_lt 0 (S m) ltac:(lia)).
    change (Q_of_nat 0) with 0 in H. lra. }
  unfold linspace. rewrite nth_map_seq by exact Hi.
  destruct (Nat.ltb i (Nat.div (S (S m)) 2)).
  - field. intro H0. rewrite H0 in Hpos. discriminate Hpos.
  - rewrite Q_of_nat_sub by lia. rewrite Q_of_nat_sub by lia.
    change (Q_of_nat 1) with 1. field. intro H0. rewrite H0 in Hpos. discriminate Hpos.
Qed.

Lemma tau_hat_of_nth (N i : nat) :
  (1 <= N)%nat -> (i < N)%nat ->
  nth i (tau_hat_of N) 0 == (Q_of_nat i + (1#2)) / Q_of_nat N.
Proof.
  intros HN Hi. destruct N as [|m]; [lia|].
  assert (HQ : 0 < Q_of_nat (S m)) by (apply (Q_of_nat_lt 0); lia).
  unfold tau_hat_of. rewrite Nat.add_1_r.
  rewrite (list_as_seq_map (linspace 0 1 (S (S m))) 0) at 1.
  unfold linspace at 2. rewrite length_map, length_seq, removelast_map_seq,
    map_map, nth_map_seq by exact Hi.
  rewrite linspace_nth by lia.
  rewrite Q_of_nat_succ with (a := S m).
  field. intro H0. rewrite H0 in HQ. discriminate HQ.
Qed.

Lemma length_tau_hat_of (N : nat) : length (tau_hat_of N) = N.
Proof.
  unfold tau_hat_of. rewrite length_map, Nat.add_1_r.
  destruct N as [|m]; [reflexivity|].
  unfold linspace. rewrite removelast_map_seq, length_map, length_seq.
  reflexivity.
Qed.

(** C8.  For [num_quantiles >= 1], [tau_hat] has [num_quantiles] entries,
    [tau_hat[i] = (i + 0.5) / num_quantiles], it is strictly increasing,
    and every entry lies strictly between 0 and 1. *)
Theorem tau_hat_midpoints (N : nat) :
  (1 <= N)%nat ->
  length (tau_hat_of N) = N /\
  (forall i, (i < N)%nat ->
     nth i (tau_hat_of N) 0 == (Q_of_nat i + (1#2)) / Q_of_nat N) /\
  (forall i j, (i < j < N)%nat ->
     nth i (tau_hat_of N) 0 < nth j (tau_hat_of N) 0) /\
  (forall i, (i < N)%nat ->
     0 < nth i (tau_hat_of N) 0 /\ nth i (tau_hat_of N) 0 < 1).
Proof.
  intros HN.
  assert (HQ : 0 < Q_of_nat N) by (apply (Q_of_nat_lt 0); lia).
  split; [apply length_tau_hat_of|].
  split; [intros i Hi; apply tau_hat_of_nth; assumption|].
  split.
  - intros i j Hij. rewrite !tau_hat_of_nth by lia.
    unfold Qdiv. apply Qmult_lt_r; [apply Qinv_lt_0_compat; exact HQ|].
    pose proof (Q_of_nat_lt i j ltac:(lia)). lra.
  - intros i Hi. rewrite tau_hat_of_nth by lia.
    pose proof (Q_of_nat_le 0 i ltac:(lia)) as H0.
    pose proof (Q_of_nat_lt i N Hi) as H1.
    assert (Hsucc : Q_of_nat (S i) <= Q_of_nat N) by (apply Q_of_nat_le; lia).
    rewrite Q_of_nat_succ in Hsucc. change (Q_of_nat 0) with 0 in H0.
    split.
    + apply Qlt_shift_div_l; [exact HQ|]. lra.
    + apply Qlt_shift_div_r; [exact HQ|]. lra.
Qed.

Lemma tau_hat_midpoints_witness :
  (1 <= 4)%nat /\
  length (tau_hat_of 4) = 4%nat /\
  (forall i, (i < 4)%nat ->
     nth i (tau_hat_of 4) 0 == (Q_of_nat i + (1#2)) / Q_of_nat 4) /\
  (forall i j, (i < j < 4)%nat ->
     nth i (tau_hat_of 4) 0 < nth j (tau_hat_of 4) 0) /\
  (forall i, (i < 4)%nat ->
     0 < nth i (tau_hat_of 4) 0 /\ nth i (tau_hat_of 4) 0 < 1).
Proof. split; [lia | apply tau_hat_midpoints; lia]. Defined.

(** ** C5: the risk-sensitive reductions of [choose_action] *)

Lemma In_insert_sorted (x z : Q) (l : list Q) :
  In z (insert_sorted x l) <-> x = z \/ In z l.
Proof.
  induction l as [|y l IH]; simpl; [tauto|].
  destruct (Qle_bool x y); simpl; [tauto|]. rewrite IH. tauto.
Qed.

Lemma insert_sorted_sorted (x : Q) (l : list Q) :
  StronglySorted Qle l -> StronglySorted Qle (insert_sorted x l).
Proof.
  induction 1 as [|y l Hs IH Hf]; simpl.
  - repeat constructor.
  - destruct (Qle_bool x y) eqn:Hxy.
    + apply Qle_bool_iff in Hxy. constructor; [constructor; assumption|].
      constructor; [exact Hxy|].
      rewrite Forall_forall in *. intros z Hz. apply Qle_trans with y; auto.
    + constructor; [exact IH|]. rewrite Forall_forall in *.
      intros z Hz. apply In_insert_sorted in Hz. destruct Hz as [Hxz|Hz]; auto.
      rewrite <- Hxz.
      assert (~ x <= y) as Hn by (intro H; apply Qle_bool_iff in H; congruence).
      apply Qnot_le_lt in Hn. apply Qlt_le_weak. exact Hn.
Qed.

Lemma sort_asc_sorted (l : list Q) : StronglySorted Qle (sort_asc l).
Proof.
  induction l as [|x l IH]; simpl; [constructor|].
  apply insert_sorted_sorted. exact IH.
Qed.

Lemma length_insert_sorted (x : Q) (l : list Q) :
  length (insert_sorted x l) = S (length l).
Proof.
  induction l as [|y l IH]; simpl; [reflexivity|].
  destruct (Qle_bool x y); simpl; [reflexivity|]. rewrite IH. reflexivity.
Qed.

Lemma length_sort_asc (l : list Q) : length (sort_asc l) = length l.
Proof.
  induction l as [|x l IH]; simpl; [reflexivity|].
  rewrite length_insert_sorted, IH. reflexivity.
Qed.

Lemma sorted_nth_le (l : list Q) (i j : nat) :
  StronglySorted Qle l -> (i <= j)%nat -> (j < length l)%nat ->
  nth i l 0 <= nth j l 0.
Proof.
  intros Hs. revert i j. induction Hs as [|a l Hs IH Hf]; intros i j Hij Hj.
  - simpl in Hj. lia.
  - destruct i as [|i], j as [|j]; simpl in *.
    + apply Qle_refl.
    + rewrite Forall_forall in Hf. apply Hf, nth_In. lia.
    + lia.
    + apply IH; lia.
Qed.

Lemma lerp_between (a b w : Q) :
  a <= b -> 0 <= w -> w <= 1 -> a <= lerp a b w /\ lerp a b w <= b.
Proof. intros. unfold lerp. split; nra. Qed.

Lemma lerp_mono_weight (a b w1 w2 : Q) :
  a <= b -> w1 <= w2 -> lerp a b w1 <= lerp a b w2.
Proof. intros. unfold lerp. nra. Qed.

Lemma floor_ceiling_range (r : Q) (K : Z) :
  0 <= r -> r <= inject_Z K ->
  (0 <= Qfloor r)%Z /\ (Qfloor r <= Qceiling r)%Z /\
  (Qceiling r <= Qfloor r + 1)%Z /\ (Qceiling r <= K)%Z /\
  0 <= r - inject_Z (Qfloor r) /\ r - inject_Z (Qfloor r) <= 1.
Proof.
  intros H0 HK.
  pose proof (Qfloor_resp_le 0 r H0) as Hf0.
  pose proof (Qceiling_resp_le r (inject_Z K) HK) as HcK.
  rewrite Qceiling_Z in HcK.
  pose proof (Qle_floor_ceiling r) as Hfc.
  pose proof (Qceiling_lt r) as Hc. pose proof (Qlt_floor r) as Hf.
  pose proof (Qfloor_le r) as Hfr.
  assert (Hcf : (Qceiling r - 1 < Qfloor r + 1)%Z).
  { rewrite Zlt_Qlt. apply Qlt_trans with r; assumption. }
  rewrite inject_Z_plus in Hf. change (inject_Z 1) with 1 in Hf.
  change (Qfloor 0) with 0%Z in Hf0. rewrite <- Zle_Qle in Hfc.
  repeat split; try lia; lra.
Qed.

(** Linear interpolation between order statistics is monotone in the rank. *)
Lemma interpolation_mono (s : list Q) (r1 r2 : Q) :
  StronglySorted Qle s -> (1 <= length s)%nat ->
  0 <= r1 -> r1 <= r2 -> r2 <= Q_of_nat (length s) - 1 ->
  lerp (nth (Z.to_nat (Qfloor r1)) s 0) (nth (Z.to_nat (Qceiling r1)) s 0)
       (r1 - inject_Z (Qfloor r1)) <=
  lerp (nth (Z.to_nat (Qfloor r2)) s 0) (nth (Z.to_nat (Qceiling r2)) s 0)
       (r2 - inject_Z (Qfloor r2)).
Proof.
  intros Hs Hn H1 H12 H2.
  set (K := (Z.of_nat (length s) - 1)%Z).
  assert (HK : Q_of_nat (length s) - 1 == inject_Z K).
  { unfold K, Q_of_nat, Z.sub. rewrite inject_Z_plus. reflexivity. }
  assert (HKn : (K < Z.of_nat (length s))%Z) by (unfold K; lia).
  destruct (floor_ceiling_range r1 K) as (Hf1 & Hfc1 & Hcf1 & HcK1 & Hw1 & Hw1');
    [exact H1 | rewrite <- HK; lra |].
  destruct (floor_ceiling_range r2 K) as (Hf2 & Hfc2 & Hcf2 & HcK2 & Hw2 & Hw2');
    [lra | rewrite <- HK; exact H2 |].
  pose proof (Qfloor_resp_le r1 r2 H12) as Hff.
  pose proof (Qceiling_resp_le r1 r2 H12) as Hcc.
  assert (Hnth : forall a b : Z, (0 <= a <= b)%Z -> (b <= K)%Z ->
            nth (Z.to_nat a) s 0 <= nth (Z.to_nat b) s 0)
    by (intros a b Hab HbK; apply sorted_nth_le; [exact Hs | lia | lia]).
  destruct (lerp_between (nth (Z.to_nat (Qfloor r1)) s 0)
              (nth (Z.to_nat (Qceiling r1)) s 0) (r1 - inject_Z (Qfloor r1)))
    as [_ Hup1]; [apply Hnth; lia | exact Hw1 | exact Hw1' |].
  destruct (lerp_between (nth (Z.to_nat (Qfloor r2)) s 0)
              (nth (Z.to_nat (Qceiling r2)) s 0) (r2 - inject_Z (Qfloor r2)))
    as [Hlo2 _]; [apply Hnth; lia | exact Hw2 | exact Hw2' |].
  destruct (Z_le_gt_dec (Qceiling r1) (Qfloor r2)) as [Hle|Hgt].
  - eapply Qle_trans; [exact Hup1|]. eapply Qle_trans; [|exact Hlo2].
    apply Hnth; lia.
  - assert (Heqf : Qfloor r1 = Qfloor r2) by lia.
    assert (Heqc : Qceiling r1 = Qceiling r2) by lia.
    rewrite <- Heqf, <- Heqc. apply lerp_mono_weight; [apply Hnth; lia|].
    rewrite Heqf. lra.
Qed.

Lemma quantile_mono (q1 q2 : Q) (row : list Q) :
  row <> [] -> 0 <= q1 -> q1 <= q2 -> q2 <= 1 ->
  quantile q1 row <= quantile q2 row.
Proof.
  intros Hne H1 H12 H2. unfold quantile.
  assert (Hn : (1 <= length row)%nat) by (destruct row; [congruence | simpl; lia]).
  pose proof (Q_of_nat_le 1 (length row) Hn) as HQ. change (Q_of_nat 1) with 1 in HQ.
  apply interpolation_mono.
  - apply sort_asc_sorted.
  - rewrite length_sort_asc. exact Hn.
  - nra.
  - nra.
  - rewrite length_sort_asc. nra.
Qed.

(** C5 (amended).  For any non-empty quantile vector, the risk-averse
    reduction (10th percentile) is at most the risk-seeking reduction
    (90th percentile).  The mean is not in general between the two (see
    the counterexample). *)
Theorem risk_averse_le_risk_seeking (row : list Q) :
  row <> [] ->
  exists averse seeking,
    reduction "risk-averse" = Some averse /\
    reduction "risk-seeking" = Some seeking /\
    averse row <= seeking row.
Proof.
  intros Hne. exists (quantile (1#10)), (quantile (9#10)).
  split; [reflexivity|]. split; [reflexivity|].
  apply quantile_mono; [exact Hne | discriminate | discriminate | discriminate].
Qed.

Lemma risk_averse_le_risk_seeking_witness :
  [1; 5; 3] <> [] /\
  exists averse seeking,
    reduction "risk-averse" = Some averse /\
    reduction "risk-seeking" = Some seeking /\
    averse [1; 5; 3] <= seeking [1; 5; 3].
Proof.
  split; [discriminate|]. apply risk_averse_le_risk_seeking. discriminate.
Defined.

(** C5 (counterexample).  For eleven quantiles [0, ..., 0, 100] the mean
    (100/11) exceeds the 90th percentile (0): the neutral reduction is not
    below the risk-seeking one. *)
Lemma risk_reduction_order_counterexample :
  exists averse neutral seeking,
    reduction "risk-averse" = Some averse /\
    reduction "neutral" = Some neutral /\
    reduction "risk-seeking" = Some seeking /\
    neutral [0;0;0;0;0;0;0;0;0;0;100] == 100#11 /\
    seeking [0;0;0;0;0;0;0;0;0;0;100] == 0 /\
    ~ (averse [0;0;0;0;0;0;0;0;0;0;100] <= neutral [0;0;0;0;0;0;0;0;0;0;100] /\
       neutral [0;0;0;0;0;0;0;0;0;0;100] <= seeking [0;0;0;0;0;0;0;0;0;0;100]).
Proof.
  exists (quantile (1#10)), mean, (quantile (9#10)).
  split; [reflexivity|]. split; [reflexivity|]. split; [reflexivity|].
  split; [vm_compute; reflexivity|]. split; [vm_compute; reflexivity|].
  intros [_ H]. vm_compute in H. apply H. reflexivity.
Qed.

(** ** C6, C7: [choose_action] *)

Lemma argmax_from_spec (r P : list Q) (best : nat) (bv : Q) :
  (best < length P)%nat -> nth best P 0 = bv ->
  (forall b, (b < length P)%nat -> nth b P 0 <= bv) ->
  (forall b, (b < best)%nat -> nth b P 0 < bv) ->
  let a := argmax_from r (length P) best bv in
  (a < length (P ++ r))%nat /\
  (forall b, (b < length (P ++ r))%nat -> nth b (P ++ r) 0 <= nth a (P ++ r) 0) /\
  (forall b, (b < a)%nat -> nth b (P ++ r) 0 < nth a (P ++ r) 0).
Proof.
  revert P best bv.
  induction r as [|x r IH]; intros P best bv Hb Hbv Hle Hlt; simpl.
  - rewrite app_nil_r. split; [exact Hb|].
    rewrite Hbv. split; assumption.
  - replace (P ++ x :: r) with ((P ++ [x]) ++ r) by (rewrite <- app_assoc; reflexivity).
    assert (HlenP : length (P ++ [x]) = S (length P))
      by (rewrite length_app; simpl; lia).
    destruct (Qlt_le_dec bv x) as [Hgt|Hge].
    + rewrite <- HlenP. apply IH.
      * lia.
      * rewrite app_nth2, Nat.sub_diag by lia. reflexivity.
      * intros b Hb'. rewrite HlenP in Hb'.
        destruct (Nat.lt_ge_cases b (length P)) as [HbP|HbP].
        -- rewrite app_nth1 by exact HbP. apply Qle_trans with bv; [auto|].
           apply Qlt_le_weak. exact Hgt.
        -- replace b with (length P) by lia.
           rewrite app_nth2, Nat.sub_diag by lia. apply Qle_refl.
      * intros b Hb'. rewrite app_nth1 by exact Hb'.
        apply Qle_lt_trans with bv; auto.
    + rewrite <- HlenP. apply IH.
      * rewrite HlenP. lia.
      * rewrite app_nth1 by exact Hb. exact Hbv.
      * intros b Hb'. rewrite HlenP in Hb'.
        destruct (Nat.lt_ge_cases b (length P)) as [HbP|HbP].
        -- rewrite app_nth1 by exact HbP. auto.
        -- replace b with (length P) by lia.
           rewrite app_nth2, Nat.sub_diag by lia. exact Hge.
      * intros b Hb'. rewrite app_nth1 by lia. auto.
Qed.

(** [argmax] returns a valid index of a maximal value, the first one. *)
Lemma argmax_spec (l : list Q) :
  l <> [] ->
  (argmax l < length l)%nat /\
  (forall b, (b < length l)%nat -> nth b l 0 <= nth (argmax l) l 0) /\
  (forall b, (b < argmax l)%nat -> nth b l 0 < nth (argmax l) l 0).
Proof.
  destruct l as [|x r]; [congruence|]. intros _.
  apply (argmax_from_spec r [x] 0 x); simpl.
  - lia.
  - reflexivity.
  - intros b Hb. destruct b; [apply Qle_refl | lia].
  - intros b Hb. lia.
Qed.

(** C6.  With [epsilon = 0], any draws of [random.random()] in [0, 1) and
    of the random action, a deterministic network whose output has
    [num_actions >= 1] rows, and a recognised risk preference,
    [choose_action] returns the same action for any two calls; it is a
    valid index, its reduced value is maximal, and every lower index has a
    strictly smaller reduced value (first maximum). *)
Theorem choose_action_greedy_deterministic {Obs Params OptState Buffer : Type}
    (net : Params -> Obs -> list (list Q))
    (ag : Agent Params OptState Buffer) (u1 u2 : Q) (s1 s2 : nat)
    (state : Obs) (risk_preference : string) :
  epsilon ag == 0 -> 0 <= u1 -> 0 <= u2 ->
  (risk_preference = "neutral"%string \/ risk_preference = "risk-averse"%string \/
   risk_preference = "risk-seeking"%string) ->
  length (net (online_net ag) state) = num_actions ag ->
  (1 <= num_actions ag)%nat ->
  choose_action net ag u1 s1 state risk_preference =
  choose_action net ag u2 s2 state risk_preference /\
  exists reduce a,
    reduction risk_preference = Some reduce /\
    choose_action net ag u1 s1 state risk_preference = Action a /\
    (a < num_actions ag)%nat /\
    (forall b, (b < num_actions ag)%nat ->
       reduce (nth b (net (online_net ag) state) []) <=
       reduce (nth a (net (online_net ag) state) [])) /\
    (forall b, (b < a)%nat ->
       reduce (nth b (net (online_net ag) state) []) <
       reduce (nth a (net (online_net ag) state) [])).
Proof.
  intros Heps Hu1 Hu2 Hrp Hlen Hn.
  assert (Hred : exists reduce, reduction risk_preference = Some reduce)
    by (destruct Hrp as [->|[->| ->]]; eexists; reflexivity).
  destruct Hred as [reduce Hred].
  set (rows := net (online_net ag) state) in *.
  assert (Hgreedy : forall u s, 0 <= u ->
            choose_action net ag u s state risk_preference =
            Action (argmax (map reduce rows))).
  { intros u s Hu. unfold choose_action.
    destruct (Qlt_le_dec u (epsilon ag)) as [Hlt|_]; [lra|].
    rewrite Hred. reflexivity. }
  rewrite !Hgreedy by assumption. split; [reflexivity|].
  assert (Hne : map reduce rows <> [])
    by (destruct rows; simpl in Hlen; [lia | discriminate]).
  destruct (argmax_spec (map reduce rows) Hne) as (Hval & Hmax & Hfirst).
  rewrite length_map, Hlen in Hval.
  assert (Hnth : forall b, (b < num_actions ag)%nat ->
            nth b (map reduce rows) 0 = reduce (nth b rows [])).
  { intros b Hb. rewrite nth_indep with (d' := reduce [])
      by (rewrite length_map; lia).
    apply map_nth. }
  exists reduce, (argmax (map reduce rows)).
  split; [exact Hred|]. split; [reflexivity|]. split; [exact Hval|].
  split.
  - intros b Hb. rewrite <- !Hnth by assumption. apply Hmax.
    rewrite length_map. lia.
  - intros b Hb. rewrite <- !Hnth by lia. apply Hfirst. exact Hb.
Qed.

Lemma choose_action_greedy_deterministic_witness :
  (epsilon (demo_agent 0) == 0 /\ 0 <= 0 /\ 0 <= 1#2 /\
   ("neutral"%string = "neutral"%string \/ "neutral"%string = "risk-averse"%string \/
    "neutral"%string = "risk-seeking"%string) /\
   length (demo_net (online_net (demo_agent 0)) tt) = num_actions (demo_agent 0) /\
   (1 <= num_actions (demo_agent 0))%nat) /\
  (choose_action demo_net (demo_agent 0) 0 1 tt "neutral" =
   choose_action demo_net (demo_agent 0) (1#2) 2 tt "neutral" /\
   exists reduce a,
    reduction "neutral" = Some reduce /\
    choose_action demo_net (demo_agent 0) 0 1 tt "neutral" = Action a /\
    (a < num_actions (demo_agent 0))%nat /\
    (forall b, (b < num_actions (demo_agent 0))%nat ->
       reduce (nth b (demo_net (online_net (demo_agent 0)) tt) []) <=
       reduce (nth a (demo_net (online_net (demo_agent 0)) tt) [])) /\
    (forall b, (b < a)%nat ->
       reduce (nth b (demo_net (online_net (demo_agent 0)) tt) []) <
       reduce (nth a (demo_net (online_net (demo_agent 0)) tt) []))).
Proof.
  split.
  - split; [reflexivity|]. split; [discriminate|]. split; [discriminate|].
    split; [left; reflexivity|]. split; [reflexivity|]. simpl. lia.
  - apply choose_action_greedy_deterministic;
      [reflexivity | discriminate | discriminate | left; reflexivity
      | reflexivity | simpl; lia].
Defined.

(** C7 (amended).  When the greedy branch is taken (the draw [u] of
    [random.random()] is not below [epsilon]), a risk preference other
    than the three recognised ones raises [ValueError]; when the
    exploration branch is taken ([u < epsilon]) the risk preference is not
    examined and the sampled random action is returned. *)
Theorem choose_action_invalid_preference {Obs Params OptState Buffer : Type}
    (net : Params -> Obs -> list (list Q))
    (ag : Agent Params OptState Buffer) (u : Q) (sampled : nat)
    (state : Obs) (risk_preference : string) :
  risk_preference <> "neutral"%string ->
  risk_preference <> "risk-averse"%string ->
  risk_preference <> "risk-seeking"%string ->
  (epsilon ag <= u ->
   choose_action net ag u sampled state risk_preference = ValueError) /\
  (u < epsilon ag ->
   choose_action net ag u sampled state risk_preference = Action sampled).
Proof.
  intros H1 H2 H3. unfold choose_action.
  assert (Hred : reduction risk_preference = None).
  { unfold reduction.
    destruct (String.eqb_spec risk_preference "neutral"); [contradiction|].
    destruct (String.eqb_spec risk_preference "risk-averse"); [contradiction|].
    destruct (String.eqb_spec risk_preference "risk-seeking"); [contradiction|].
    reflexivity. }
  split; intros Hu; destruct (Qlt_le_dec u (epsilon ag)) as [Hlt|Hge].
  - exfalso. apply (Qlt_not_le u (epsilon ag)); assumption.
  - rewrite Hred. reflexivity.
  - reflexivity.
  - exfalso. apply (Qlt_not_le u (epsilon ag)); assumption.
Qed.

Lemma choose_action_invalid_preference_witness :
  ("bogus"%string <> "neutral"%string /\ "bogus"%string <> "risk-averse"%string /\
   "bogus"%string <> "risk-seeking"%string) /\
  ((epsilon (demo_agent (1#2)) <= 3#4 ->
    choose_action demo_net (demo_agent (1#2)) (3#4) 2 tt "bogus" = ValueError) /\
   (3#4 < epsilon (demo_agent (1#2)) ->
    choose_action demo_net (demo_agent (1#2)) (3#4) 2 tt "bogus" = Action 2)).
Proof.
  split; [repeat split; discriminate|].
  apply choose_action_invalid_preference; discriminate.
Defined.

(** C7 (counterexample).  With [epsilon = 1] (the default
    [epsilon_start]) and the draw 0.5, [choose_action] with the
    unrecognised preference "bogus" returns the sampled random action
    instead of raising. *)
Lemma choose_action_invalid_preference_counterexample :
  choose_action demo_net (demo_agent 1) (1#2) 2 tt "bogus" = Action 2 /\
  choose_action demo_net (demo_agent 1) (1#2) 2 tt "bogus" <> ValueError.
Proof. split; [reflexivity | discriminate]. Qed.

(** ** C2: the Bellman targets of [train_step] *)

Lemma nth_error_zip_with {A B C : Type} (f : A -> B -> C) (l1 : list A)
    (l2 : list B) (b : nat) :
  nth_error (zip_with f l1 l2) b =
  match nth_error l1 b, nth_error l2 b with
  | Some x, Some y => Some (f x y)
  | _, _ => None
  end.
Proof.
  revert l2 b. induction l1 as [|x l1 IH]; intros [|y l2] [|b]; simpl; auto.
  destruct (nth_error l1 b); reflexivity.
Qed.

Lemma argmax_map_spec (f : list Q -> Q) (rows : list (list Q)) :
  rows <> [] ->
  (argmax (map f rows) < length rows)%nat /\
  (forall b, (b < length rows)%nat ->
     f (nth b rows []) <= f (nth (argmax (map f rows)) rows [])) /\
  (forall b, (b < argmax (map f rows))%nat ->
     f (nth b rows []) < f (nth (argmax (map f rows)) rows [])).
Proof.
  intros Hne.
  assert (Hne' : map f rows <> []) by (destruct rows; [congruence | discriminate]).
  destruct (argmax_spec (map f rows) Hne') as (Hval & Hmax & Hfirst).
  rewrite length_map in Hval.
  assert (Hnth : forall b, (b < length rows)%nat ->
            nth b (map f rows) 0 = f (nth b rows [])).
  { intros b Hb. rewrite nth_indep with (d' := f [])
      by (rewrite length_map; lia).
    apply map_nth. }
  split; [exact Hval|]. split.
  - intros b Hb. rewrite <- !Hnth by assumption. apply Hmax.
    rewrite length_map. exact Hb.
  - intros b Hb. rewrite <- !Hnth by lia. apply Hfirst. exact Hb.
Qed.

Lemma nth_map_map_lt (f g : Q -> Q) (l : list Q) (k : nat) :
  (k < length l)%nat -> nth k (map f (map g l)) 0 = f (g (nth k l 0)).
Proof.
  intros Hk. rewrite map_map.
  rewrite nth_indep with (d' := f (g 0)) by (rewrite length_map; exact Hk).
  apply (map_nth (fun x => f (g x))).
Qed.

(** C2.  For the transition at position [b] of a sampled batch, with next
    state [s], reward [r] and flag [d]: the next action [a*] is the first
    action maximising the online network's quantile mean on [s], and
    every entry [k] of the target row is
    [r + (1 - d) * gamma * target_net(s)[a*][k]]; when [d] is true every
    entry equals [r], whatever the target network outputs. *)
Theorem bellman_targets_double_q {Obs Params : Type}
    (net : Params -> Obs -> list (list Q)) (gamma : Q) (online target : Params)
    (next_states : list Obs) (rewards : list Q) (dones : list bool)
    (b A N : nat) (s : Obs) (r : Q) (d : bool) :
  nth_error next_states b = Some s ->
  nth_error rewards b = Some r ->
  nth_error dones b = Some d ->
  (1 <= A)%nat ->
  length (net online s) = A ->
  length (net target s) = A ->
  (forall a, (a < A)%nat -> length (nth a (net target s) []) = N) ->
  exists a_star row,
    (a_star < A)%nat /\
    (forall a, (a < A)%nat ->
       mean (nth a (net online s) []) <= mean (nth a_star (net online s) [])) /\
    (forall a, (a < a_star)%nat ->
       mean (nth a (net online s) []) < mean (nth a_star (net online s) [])) /\
    nth_error (bellman_targets net gamma online target next_states rewards dones) b
      = Some row /\
    length row = N /\
    (forall k, (k < N)%nat ->
       nth k row 0 ==
       r + (1 - (if d then 1 else 0)) * gamma * nth k (nth a_star (net target s) []) 0) /\
    (d = true -> forall k, (k < N)%nat -> nth k row 0 == r).
Proof.
  intros Hs Hr Hd HA Hon Htg HN.
  assert (Hne : net online s <> []) by (destruct (net online s); simpl in Hon; [lia | discriminate]).
  destruct (argmax_map_spec mean (net online s) Hne) as (Hval & Hmax & Hfirst).
  rewrite Hon in Hval, Hmax.
  set (a_star := argmax (map mean (net online s))) in *.
  set (t2 := (1 - (if d then 1 else 0)) * gamma).
  set (trow := nth a_star (net target s) []).
  exists a_star, (map (fun z => r + z) (map (fun z => t2 * z) trow)).
  split; [exact Hval|]. split; [exact Hmax|]. split; [exact Hfirst|].
  assert (Hlen : length trow = N) by (apply HN; exact Hval).
  split.
  - unfold bellman_targets, gather_rows.
    rewrite nth_error_zip_with, Hr, nth_error_zip_with, !nth_error_map, Hd.
    rewrite nth_error_zip_with, !nth_error_map, Hs. reflexivity.
  - split; [rewrite !length_map; exact Hlen|].
    split.
    + intros k Hk. rewrite nth_map_map_lt by lia. unfold t2, trow. ring.
    + intros Hdt k Hk. rewrite nth_map_map_lt by lia. unfold t2.
      rewrite Hdt. cbv iota. ring.
Qed.

Lemma bellman_targets_double_q_witness :
  (nth_error [tt] 0 = Some tt /\ nth_error [5] 0 = Some 5 /\
   nth_error [true] 0 = Some true /\ (1 <= 3)%nat /\
   length (demo_net tt tt) = 3%nat /\ length (demo_net tt tt) = 3%nat /\
   (forall a, (a < 3)%nat -> length (nth a (demo_net tt tt) []) = 3%nat)) /\
  exists a_star row,
    (a_star < 3)%nat /\
    (forall a, (a < 3)%nat ->
       mean (nth a (demo_net tt tt) []) <= mean (nth a_star (demo_net tt tt) [])) /\
    (forall a, (a < a_star)%nat ->
       mean (nth a (demo_net tt tt) []) < mean (nth a_star (demo_net tt tt) [])) /\
    nth_error (bellman_targets demo_net (99#100) tt tt [tt] [5] [true]) 0
      = Some row /\
    length row = 3%nat /\
    (forall k, (k < 3)%nat ->
       nth k row 0 ==
       5 + (1 - (if true then 1 else 0)) * (99#100) * nth k (nth a_star (demo_net tt tt) []) 0) /\
    (true = true -> forall k, (k < 3)%nat -> nth k row 0 == 5).
Proof.
  assert (H3 : forall a, (a < 3)%nat -> length (nth a (demo_net tt tt) []) = 3%nat)
    by (intros a Ha; destruct a as [|[|[|a]]]; try reflexivity; lia).
  split.
  - refine (conj eq_refl (conj eq_refl (conj eq_refl (conj _ (conj eq_refl (conj eq_refl H3)))))).
    lia.
  - apply (bellman_targets_double_q demo_net (99#100) tt tt [tt] [5] [true] 0 3 3 tt 5 true);
      try reflexivity; [lia | exact H3].
Defined.

(** ** C3, C4, C9: [train_step] and [update_target_network] *)

(** C4.  When the replay buffer holds fewer than [batch_size]
    transitions, [train_step] returns the agent unchanged (beta, online
    and target parameters, optimizer state, buffer) and calls none of its
    collaborators: no sampling, no optimizer step, no priority write. *)
Theorem train_step_skip {Obs Params OptState Buffer : Type}
    (net : Params -> Obs -> list (list Q)) (buffer_len : Buffer -> nat)
    (buffer_sample : Buffer -> nat -> Q -> Batch Obs)
    (buffer_update_priorities : Buffer -> list nat -> list Q -> Buffer)
    (adam_step : OptState -> Params -> (Params -> Q) -> Params * OptState)
    (ag : Agent Params OptState Buffer) :
  (buffer_len (replay_buffer ag) < batch_size ag)%nat ->
  train_step net buffer_len buffer_sample buffer_update_priorities adam_step ag
  = (ag, []).
Proof.
  intros H. unfold train_step.
  destruct (Nat.ltb_spec (buffer_len (replay_buffer ag)) (batch_size ag));
    [reflexivity | lia].
Qed.

Lemma train_step_skip_witness :
  (demo_buffer_len 5 (replay_buffer (demo_agent 0)) < batch_size (demo_agent 0))%nat /\
  train_step demo_net (demo_buffer_len 5) demo_sample demo_update_priorities
    demo_adam (demo_agent 0) = (demo_agent 0, []).
Proof.
  split; [cbv; lia|].
  apply train_step_skip. cbv. lia.
Defined.

(** C3 (amended).  [beta] moves to [min(1, beta + beta_increment)] on a
    [train_step] that passes the buffer-size guard (the batch being
    sampled with the previous [beta]), and is unchanged on a skipped
    step. *)
Theorem train_step_beta {Obs Params OptState Buffer : Type}
    (net : Params -> Obs -> list (list Q)) (buffer_len : Buffer -> nat)
    (buffer_sample : Buffer -> nat -> Q -> Batch Obs)
    (buffer_update_priorities : Buffer -> list nat -> list Q -> Buffer)
    (adam_step : OptState -> Params -> (Params -> Q) -> Params * OptState)
    (ag : Agent Params OptState Buffer) :
  let res := train_step net buffer_len buffer_sample
               buffer_update_priorities adam_step ag in
  ((batch_size ag <= buffer_len (replay_buffer ag))%nat ->
     beta (fst res) == Qmin 1 (beta ag + beta_increment ag) /\
     exists rest, snd res = ESample (batch_size ag) (beta ag) :: rest) /\
  ((buffer_len (replay_buffer ag) < batch_size ag)%nat ->
     beta (fst res) = beta ag).
Proof.
  simpl. split.
  - intros H. unfold train_step.
    destruct (Nat.ltb_spec (buffer_len (replay_buffer ag)) (batch_size ag));
      [lia|].
    simpl. split; [|eexists; reflexivity].
    unfold py_min.
    destruct (Qlt_le_dec (beta ag + beta_increment ag) 1) as [Hlt|Hge].
    + symmetry. apply Q.min_r. apply Qlt_le_weak. exact Hlt.
    + symmetry. apply Q.min_l. exact Hge.
  - intros H. rewrite train_step_skip by exact H. reflexivity.
Qed.

(** C3 (counterexample).  With an empty buffer (0 < batch_size = 32),
    [train_step] leaves [beta = 0.4] where the claim expects
    [min(1, 0.4 + 0.001)]. *)
Lemma train_step_beta_counterexample :
  beta (fst (train_step demo_net (demo_buffer_len 0) demo_sample
               demo_update_priorities demo_adam (demo_agent 0))) == 2#5 /\
  ~ (beta (fst (train_step demo_net (demo_buffer_len 0) demo_sample
                  demo_update_priorities demo_adam (demo_agent 0)))
     == Qmin 1 (beta (demo_agent 0) + beta_increment (demo_agent 0))).
Proof.
  split; [vm_compute; reflexivity|].
  intro H. vm_compute in H. discriminate H.
Qed.

(** C9.  [train_step] leaves the target parameters as they were and
    changes the online parameters only through the optimizer step on its
    loss; [update_target_network] copies the online parameters into the
    target and changes nothing else, so that afterwards both networks
    give the same output on every input. *)
Theorem target_parameters_frame {Obs Params OptState Buffer : Type}
    (net : Params -> Obs -> list (list Q)) (buffer_len : Buffer -> nat)
    (buffer_sample : Buffer -> nat -> Q -> Batch Obs)
    (buffer_update_priorities : Buffer -> list nat -> list Q -> Buffer)
    (adam_step : OptState -> Params -> (Params -> Q) -> Params * OptState)
    (ag : Agent Params OptState Buffer) :
  let res := train_step net buffer_len buffer_sample
               buffer_update_priorities adam_step ag in
  let ag' := update_target_network ag in
  target_net (fst res) = target_net ag /\
  (online_net (fst res) = online_net ag \/
   exists loss, online_net (fst res) =
                fst (adam_step (optimizer ag) (online_net ag) loss)) /\
  target_net ag' = online_net ag /\
  online_net ag' = online_net ag /\
  beta ag' = beta ag /\ optimizer ag' = optimizer ag /\
  replay_buffer ag' = replay_buffer ag /\
  (forall x, net (target_net ag') x = net (online_net ag') x).
Proof.
  simpl. unfold train_step.
  destruct (Nat.ltb (buffer_len (replay_buffer ag)) (batch_size ag)).
  - simpl. repeat split; auto.
  - simpl. repeat split; auto. right. eexists. reflexivity.
Qed.

(** * Further properties of the agent *)

(** ** [get_risk_preference_from_rewards] feeding [choose_action] *)

(** The preference computed from the rewards is always one that
    [choose_action] recognises, so [choose_action] called with it never
    raises [ValueError]. *)
Theorem risk_preference_from_rewards_accepted {Obs Params OptState Buffer : Type}
    (net : Params -> Obs -> list (list Q))
    (ag : Agent Params OptState Buffer) (u : Q) (sampled : nat)
    (state : Obs) (recent_rewards : list Q) (threshold : Q) :
  (exists reduce,
     reduction (get_risk_preference_from_rewards recent_rewards threshold)
     = Some reduce) /\
  choose_action net ag u sampled state
    (get_risk_preference_from_rewards recent_rewards threshold) <> ValueError.
Proof.
  assert (Hred : exists reduce,
     reduction (get_risk_preference_from_rewards recent_rewards threshold)
     = Some reduce).
  { unfold get_risk_preference_from_rewards.
    destruct (Nat.eqb (length recent_rewards) 0); [eexists; reflexivity|].
    destruct (Qlt_le_dec (mean recent_rewards) threshold);
      eexists; reflexivity. }
  split; [exact Hred|].
  destruct Hred as [reduce Hred]. unfold choose_action.
  destruct (Qlt_le_dec u (epsilon ag)); [discriminate|].
  rewrite Hred. discriminate.
Qed.

(** Empty reward history gives "neutral" and only it does; raising the
    threshold can only turn "risk-averse" into "risk-seeking", never the
    other way round. *)
Theorem risk_preference_threshold_mono (recent_rewards : list Q) (t t' : Q) :
  t <= t' ->
  (get_risk_preference_from_rewards recent_rewards t = "neutral"%string <->
   recent_rewards = []) /\
  (get_risk_preference_from_rewards recent_rewards t = "risk-seeking"%string ->
   get_risk_preference_from_rewards recent_rewards t' = "risk-seeking"%string) /\
  (get_risk_preference_from_rewards recent_rewards t' = "risk-averse"%string ->
   get_risk_preference_from_rewards recent_rewards t = "risk-averse"%string).
Proof.
  intros Ht. unfold get_risk_preference_from_rewards.
  destruct recent_rewards as [|r rs]; simpl.
  - split; [split; reflexivity|]. split; intros H; discriminate H.
  - destruct (Qlt_le_dec (mean (r :: rs)) t) as [H1|H1];
    destruct (Qlt_le_dec (mean (r :: rs)) t') as [H2|H2];
    (split; [split; intros H; discriminate H|]); split; intros H;
      try reflexivity; try discriminate H; lra.
Qed.

Lemma risk_preference_threshold_mono_witness :
  (1#2) <= 1 /\
  (get_risk_preference_from_rewards [1#10; 2#10] (1#2) = "neutral"%string <->
   [1#10; 2#10] = []) /\
  (get_risk_preference_from_rewards [1#10; 2#10] (1#2) = "risk-seeking"%string ->
   get_risk_preference_from_rewards [1#10; 2#10] 1 = "risk-seeking"%string) /\
  (get_risk_preference_from_rewards [1#10; 2#10] 1 = "risk-averse"%string ->
   get_risk_preference_from_rewards [1#10; 2#10] (1#2) = "risk-averse"%string).
Proof.
  split; [discriminate|]. apply risk_preference_threshold_mono. discriminate.
Defined.

(** ** Huber and the loss *)

Lemma huber_nonneg (x : Q) : 0 <= huber x.
Proof.
  unfold huber, huber_k, lt_float.
  destruct (Qlt_le_dec (Qabs x) 1) as [H1|H1]; revert H1;
    apply Qabs_case; intros; nra.
Qed.

Lemma huber_zero_iff (x : Q) : huber x == 0 <-> x == 0.
Proof.
  unfold huber, huber_k, lt_float.
  destruct (Qlt_le_dec (Qabs x) 1) as [H1|H1]; revert H1; apply Qabs_case; intros;
    split; intros; nra.
Qed.

(** [huber] grows with the magnitude of its argument. *)
Theorem huber_mono_abs (x y : Q) :
  Qabs x <= Qabs y -> huber x <= huber y.
Proof.
  unfold huber, huber_k, lt_float.
  destruct (Qlt_le_dec (Qabs x) 1) as [Hx|Hx];
  destruct (Qlt_le_dec (Qabs y) 1) as [Hy|Hy];
  revert Hx Hy; apply Qabs_case; intros Ha Hx Hy;
  revert Hx Hy; apply Qabs_case; intros Hb Hx Hy Hxy; nra.
Qed.

Lemma huber_mono_abs_witness :
  Qabs (1#2) <= Qabs (-3) /\ huber (1#2) <= huber (-3).
Proof. split; [vm_compute; discriminate | apply huber_mono_abs; vm_compute; discriminate]. Defined.

Lemma in_zip_with {A B C : Type} (f : A -> B -> C) (l1 : list A)
    (l2 : list B) (z : C) :
  In z (zip_with f l1 l2) -> exists x y, In x l1 /\ In y l2 /\ z = f x y.
Proof.
  revert l2. induction l1 as [|x l1 IH]; intros [|y l2] Hz; simpl in *;
    try contradiction.
  destruct Hz as [Hz|Hz].
  - exists x, y. auto.
  - destruct (IH l2 Hz) as (x' & y' & H1 & H2 & H3). exists x', y'. auto.
Qed.

Lemma qsum_nonneg (l : list Q) : Forall (Qle 0) l -> 0 <= qsum l.
Proof.
  induction 1 as [|x l Hx Hl IH]; [apply Qle_refl|].
  unfold qsum in *. simpl. lra.
Qed.

Lemma mean_nonneg (l : list Q) : Forall (Qle 0) l -> 0 <= mean l.
Proof.
  intros H. unfold mean, Qdiv. apply Qmult_le_0_compat.
  - apply qsum_nonneg. exact H.
  - apply Qinv_le_0_compat. apply (Q_of_nat_le 0). lia.
Qed.

Lemma pinball_huber_nonneg (tau d : Q) : 0 <= pinball_huber tau d.
Proof.
  unfold pinball_huber. apply Qmult_le_0_compat; [apply Qabs_nonneg|].
  apply huber_nonneg.
Qed.

Lemma element_loss_nonneg (tau t p : list Q) : 0 <= element_loss tau t p.
Proof.
  rewrite element_loss_rows. apply mean_nonneg.
  apply Forall_forall. intros z Hz. apply in_map_iff in Hz.
  destruct Hz as (row & <- & Hrow). apply mean_nonneg.
  apply in_zip_with in Hrow. destruct Hrow as (tx & px & _ & _ & ->).
  apply Forall_forall. intros z Hz. apply in_map_iff in Hz.
  destruct Hz as (ty & <- & _). apply pinball_huber_nonneg.
Qed.

(** The quantile Huber loss is never negative: every per-element loss is
    non-negative, and so is the importance-weighted scalar loss when the
    importance-sampling weights are. *)
Theorem quantile_huber_loss_nonneg (tau : list Q) (targets preds : list (list Q))
    (weights : list Q) :
  Forall (Qle 0) weights ->
  Forall (Qle 0) (batch_loss tau targets preds) /\
  0 <= weighted_loss tau targets preds weights.
Proof.
  intros Hw.
  assert (Hl : Forall (Qle 0) (batch_loss tau targets preds)).
  { apply Forall_forall. intros z Hz. apply in_zip_with in Hz.
    destruct Hz as (t & p & _ & _ & ->). apply element_loss_nonneg. }
  split; [exact Hl|].
  unfold weighted_loss. apply mean_nonneg. apply Forall_forall.
  intros z Hz. apply in_zip_with in Hz. destruct Hz as (w & l & Hw' & Hl' & ->).
  rewrite Forall_forall in Hw, Hl.
  apply Qmult_le_0_compat; [apply Hw | apply Hl]; assumption.
Qed.

Lemma quantile_huber_loss_nonneg_witness :
  Forall (Qle 0) [1; 1#2] /\
  Forall (Qle 0) (batch_loss (tau_hat_of 2) [[0;0]; [1;3]] [[0;1]; [2;2]]) /\
  0 <= weighted_loss (tau_hat_of 2) [[0;0]; [1;3]] [[0;1]; [2;2]] [1; 1#2].
Proof.
  assert (Hw : Forall (Qle 0) [1; 1#2])
    by (repeat constructor; vm_compute; discriminate).
  split; [exact Hw|]. apply quantile_huber_loss_nonneg. exact Hw.
Defined.

Lemma sum_upto_nonneg (n : nat) (f : nat -> Q) :
  (forall k, (k < n)%nat -> 0 <= f k) -> 0 <= sum_upto n f.
Proof.
  induction n as [|n IH]; intros H; simpl; [apply Qle_refl|].
  pose proof (IH (fun k Hk => H k ltac:(lia))). pose proof (H n ltac:(lia)). lra.
Qed.

Lemma sum_upto_zero_iff (n : nat) (f : nat -> Q) :
  (forall k, (k < n)%nat -> 0 <= f k) ->
  (sum_upto n f == 0 <-> forall k, (k < n)%nat -> f k == 0).
Proof.
  induction n as [|n IH]; intros H; simpl.
  - split; [intros _ k Hk; lia | intros _; reflexivity].
  - assert (H1 : 0 <= sum_upto n f) by (apply sum_upto_nonneg; intros; apply H; lia).
    assert (H2 : 0 <= f n) by (apply H; lia).
    split.
    + intros Hs k Hk.
      assert (Hz : sum_upto n f == 0 /\ f n == 0) by lra.
      destruct Hz as [Hz1 Hz2].
      destruct (Nat.eq_dec k n) as [->|Hne]; [exact Hz2|].
      rewrite IH in Hz1 by (intros; apply H; lia). apply Hz1. lia.
    + intros Hall. rewrite (proj2 (IH (fun k Hk => H k ltac:(lia))))
        by (intros k Hk; apply Hall; lia).
      rewrite (Hall n) by lia. reflexivity.
Qed.

Lemma div_pos_zero_iff (x c : Q) : 0 < c -> (x / c == 0 <-> x == 0).
Proof.
  intros Hc. split; intros H.
  - assert (Hx : x == x / c * c) by (field; intro H0; rewrite H0 in Hc; discriminate Hc).
    rewrite Hx, H. ring.
  - rewrite H. unfold Qdiv. ring.
Qed.

Lemma div_pos_nonneg (x c : Q) : 0 < c -> 0 <= x -> 0 <= x / c.
Proof.
  intros Hc Hx. unfold Qdiv. apply Qmult_le_0_compat; [exact Hx|].
  apply Qinv_le_0_compat. apply Qlt_le_weak. exact Hc.
Qed.

Lemma pinball_huber_zero_iff (tau d : Q) :
  0 < tau -> tau < 1 -> (pinball_huber tau d == 0 <-> d == 0).
Proof.
  intros H0 H1. unfold pinball_huber.
  assert (Hw : 0 < Qabs (tau - lt_float d 0)).
  { unfold lt_float. destruct (Qlt_le_dec d 0); apply Qabs_case; intros; lra. }
  split; intros H.
  - apply huber_zero_iff. apply Qmult_integral in H.
    destruct H as [H|H]; [lra | exact H].
  - apply huber_zero_iff in H. rewrite H. ring.
Qed.

(** The loss of a batch element is zero exactly when every target
    quantile equals every predicted quantile (all of them one value); in
    particular [predicted = targets] does not make the loss zero unless
    the quantiles are all equal.  Needs midpoints strictly inside (0, 1),
    as [tau_hat] has them. *)
Theorem element_loss_zero_iff (n : nat) (tau t p : list Q) :
  (1 <= n)%nat -> length tau = n -> length t = n -> length p = n ->
  (forall j, (j < n)%nat -> 0 < nth j tau 0 /\ nth j tau 0 < 1) ->
  (element_loss tau t p == 0 <->
   forall i j, (i < n)%nat -> (j < n)%nat -> nth i t 0 == nth j p 0).
Proof.
  intros Hn Htau Ht Hp Hin.
  assert (HQ : 0 < Q_of_nat n) by (apply (Q_of_nat_lt 0); lia).
  assert (Hrho : forall j i, 0 <= pinball_huber (nth j tau 0) (nth i t 0 - nth j p 0))
    by (intros; apply pinball_huber_nonneg).
  assert (Hinner : forall j, 0 <= sum_upto n (fun i =>
            pinball_huber (nth j tau 0) (nth i t 0 - nth j p 0)) / Q_of_nat n)
    by (intros j; apply div_pos_nonneg; [exact HQ|]; apply sum_upto_nonneg; auto).
  rewrite element_loss_index by eassumption. unfold element_loss_by_pred_tau.
  rewrite div_pos_zero_iff by exact HQ.
  rewrite sum_upto_zero_iff by auto.
  split.
  - intros H i j Hi Hj. specialize (H j Hj).
    rewrite div_pos_zero_iff, sum_upto_zero_iff in H by auto.
    specialize (H i Hi). destruct (Hin j Hj).
    rewrite pinball_huber_zero_iff in H by assumption. lra.
  - intros H j Hj. rewrite div_pos_zero_iff, sum_upto_zero_iff by auto.
    intros i Hi. destruct (Hin j Hj).
    rewrite pinball_huber_zero_iff by assumption.
    rewrite (H i j Hi Hj). ring.
Qed.

Lemma element_loss_zero_iff_witness :
  ((1 <= 2)%nat /\ length (tau_hat_of 2) = 2%nat /\ length [3; 3] = 2%nat /\
   length [3; 3] = 2%nat /\
   (forall j, (j < 2)%nat -> 0 < nth j (tau_hat_of 2) 0 /\ nth j (tau_hat_of 2) 0 < 1)) /\
  (element_loss (tau_hat_of 2) [3; 3] [3; 3] == 0 <->
   forall i j, (i < 2)%nat -> (j < 2)%nat -> nth i [3; 3] 0 == nth j [3; 3] 0).
Proof.
  assert (Hin : forall j, (j < 2)%nat ->
            0 < nth j (tau_hat_of 2) 0 /\ nth j (tau_hat_of 2) 0 < 1).
  { intros j Hj. destruct j as [|[|j]]; [| |lia];
      split; vm_compute; reflexivity. }
  split.
  - refine (conj _ (conj eq_refl (conj eq_refl (conj eq_refl Hin)))). lia.
  - apply element_loss_zero_iff; try reflexivity; [lia | exact Hin].
Defined.

(** ** Priorities and repeated training steps *)

Lemma td_errors_nonneg (targets preds : list (list Q)) :
  Forall (Qle 0) (td_errors targets preds).
Proof.
  apply Forall_forall. intros z Hz. apply in_zip_with in Hz.
  destruct Hz as (t & p & _ & _ & ->). apply mean_nonneg.
  apply Forall_forall. intros z Hz. apply in_map_iff in Hz.
  destruct Hz as (d & <- & _). apply Qabs_nonneg.
Qed.




(** A training step that passes the buffer-size guard calls its
    collaborators in this order: one sample of [batch_size] transitions
    with the current [beta], one optimizer step, one priority write for
    exactly the sampled indices; every priority it writes is
    non-negative. *)
Theorem train_step_effects {Obs Params OptState Buffer : Type}
    (net : Params -> Obs -> list (list Q)) (buffer_len : Buffer -> nat)
    (buffer_sample : Buffer -> nat -> Q -> Batch Obs)
    (buffer_update_priorities : Buffer -> list nat -> list Q -> Buffer)
    (adam_step : OptState -> Params -> (Params -> Q) -> Params * OptState)
    (ag : Agent Params OptState Buffer) :
  (batch_size ag <= buffer_len (replay_buffer ag))%nat ->
  exists errors,
    snd (train_step net buffer_len buffer_sample buffer_update_priorities
           adam_step ag) =
    [ESample (batch_size ag) (beta ag); EOptimizerStep;
     EUpdatePriorities
       (b_indices (buffer_sample (replay_buffer ag) (batch_size ag) (beta ag)))
       errors] /\
    Forall (Qle 0) errors /\
    replay_buffer (fst (train_step net buffer_len buffer_sample
                          buffer_update_priorities adam_step ag)) =
    buffer_update_priorities (replay_buffer ag)
      (b_indices (buffer_sample (replay_buffer ag) (batch_size ag) (beta ag)))
      errors.
Proof.
  intros H. unfold train_step.
  destruct (Nat.ltb_spec (buffer_len (replay_buffer ag)) (batch_size ag)); [lia|].
  simpl. eexists. split; [reflexivity|]. split; [apply td_errors_nonneg|].
  reflexivity.
Qed.

Lemma train_step_effects_witness :
  (batch_size (demo_agent 0) <= demo_buffer_len 40 (replay_buffer (demo_agent 0)))%nat /\
  exists errors,
    snd (train_step demo_net (demo_buffer_len 40) demo_sample
           demo_update_priorities demo_adam (demo_agent 0)) =
    [ESample (batch_size (demo_agent 0)) (beta (demo_agent 0)); EOptimizerStep;
     EUpdatePriorities
       (b_indices (demo_sample (replay_buffer (demo_agent 0))
                     (batch_size (demo_agent 0)) (beta (demo_agent 0))))
       errors] /\
    Forall (Qle 0) errors /\
    replay_buffer (fst (train_step demo_net (demo_buffer_len 40) demo_sample
                          demo_update_priorities demo_adam (demo_agent 0))) =
    demo_update_priorities (replay_buffer (demo_agent 0))
      (b_indices (demo_sample (replay_buffer (demo_agent 0))
                    (batch_size (demo_agent 0)) (beta (demo_agent 0))))
      errors.
Proof.
  split; [cbv; lia|]. apply train_step_effects. cbv. lia.
Defined.

Section Steps.

Variables Obs Params OptState Buffer : Type.
Variable net : Params -> Obs -> list (list Q).
Variable buffer_len : Buffer -> nat.
Variable buffer_sample : Buffer -> nat -> Q -> Batch Obs.
Variable buffer_update_priorities : Buffer -> list nat -> list Q -> Buffer.
Variable adam_step : OptState -> Params -> (Params -> Q) -> Params * OptState.

Local Abbreviation step ag :=
  (fst (train_step net buffer_len buffer_sample buffer_update_priorities
          adam_step ag)).
Local Abbreviation steps n ag :=
  (train_steps net buffer_len buffer_sample buffer_update_priorities
     adam_step n ag).

Lemma train_step_fields (ag : Agent Params OptState Buffer) :
  target_net (step ag) = target_net ag /\ epsilon (step ag) = epsilon ag /\
  gamma (step ag) = gamma ag /\ batch_size (step ag) = batch_size ag /\
  num_actions (step ag) = num_actions ag /\
  num_quantiles (step ag) = num_quantiles ag /\
  beta_increment (step ag) = beta_increment ag /\ tau_hat (step ag) = tau_hat ag.
Proof.
  unfold train_step.
  destruct (Nat.ltb (buffer_len (replay_buffer ag)) (batch_size ag));
    simpl; repeat split.
Qed.

Lemma train_step_beta_step (ag : Agent Params OptState Buffer) :
  0 <= beta_increment ag -> beta ag <= 1 ->
  beta ag <= beta (step ag) /\ beta (step ag) <= 1.
Proof.
  intros Hinc Hb. unfold train_step.
  destruct (Nat.ltb (buffer_len (replay_buffer ag)) (batch_size ag)); simpl.
  - split; [apply Qle_refl | exact Hb].
  - unfold py_min. destruct (Qlt_le_dec (beta ag + beta_increment ag) 1); lra.
Qed.

Lemma train_steps_S_r (n : nat) (ag : Agent Params OptState Buffer) :
  steps (S n) ag = step (steps n ag).
Proof.
  revert ag.
  induction n as [|n IH]; intros ag; [reflexivity|].
  simpl in *. apply IH.
Qed.

(** Over any number of training steps the target parameters (they only
    age until the next [update_target_network]), [epsilon] (its decay is
    left to the caller), [gamma], [batch_size], the shapes,
    [beta_increment] and [tau_hat] stay as they were. *)
Theorem train_steps_frame (n : nat) (ag : Agent Params OptState Buffer) :
  target_net (steps n ag) = target_net ag /\ epsilon (steps n ag) = epsilon ag /\
  gamma (steps n ag) = gamma ag /\ batch_size (steps n ag) = batch_size ag /\
  num_actions (steps n ag) = num_actions ag /\
  num_quantiles (steps n ag) = num_quantiles ag /\
  beta_increment (steps n ag) = beta_increment ag /\
  tau_hat (steps n ag) = tau_hat ag.
Proof.
  induction n as [|n IH]; [repeat split|].
  rewrite train_steps_S_r.
  destruct (train_step_fields (steps n ag)) as (H1 & H2 & H3 & H4 & H5 & H6 & H7 & H8).
  destruct IH as (I1 & I2 & I3 & I4 & I5 & I6 & I7 & I8).
  repeat split; congruence.
Qed.

(** With a non-negative [beta_increment] and a starting [beta <= 1],
    [beta] never decreases from one training step to the next and never
    exceeds 1. *)
Theorem train_steps_beta_bounds (ag : Agent Params OptState Buffer) :
  0 <= beta_increment ag -> beta ag <= 1 ->
  forall n, beta ag <= beta (steps n ag) /\
            beta (steps n ag) <= beta (steps (S n) ag) /\
            beta (steps (S n) ag) <= 1.
Proof.
  intros Hinc Hb.
  assert (Hinv : forall n, beta ag <= beta (steps n ag) /\ beta (steps n ag) <= 1).
  { induction n as [|n [IH1 IH2]]; [split; [apply Qle_refl | exact Hb]|].
    rewrite train_steps_S_r.
    destruct (train_step_beta_step (steps n ag)) as [H1 H2]; [|exact IH2|].
    - destruct (train_steps_frame n ag) as (_ & _ & _ & _ & _ & _ & Hi & _).
      rewrite Hi. exact Hinc.
    - split; [eapply Qle_trans; eassumption | exact H2]. }
  intros n. destruct (Hinv n) as [H1 H2]. destruct (Hinv (S n)) as [_ H4].
  split; [exact H1|]. split; [|exact H4].
  rewrite train_steps_S_r. apply train_step_beta_step; [|exact H2].
  destruct (train_steps_frame n ag) as (_ & _ & _ & _ & _ & _ & Hi & _).
  rewrite Hi. exact Hinc.
Qed.

End Steps.

Lemma train_steps_beta_bounds_witness :
  0 <= beta_increment (demo_agent 0) /\ beta (demo_agent 0) <= 1 /\
  forall n,
    beta (demo_agent 0) <=
      beta (train_steps demo_net (demo_buffer_len 40) demo_sample
              demo_update_priorities demo_adam n (demo_agent 0)) /\
    beta (train_steps demo_net (demo_buffer_len 40) demo_sample
            demo_update_priorities demo_adam n (demo_agent 0)) <=
      beta (train_steps demo_net (demo_buffer_len 40) demo_sample
              demo_update_priorities demo_adam (S n) (demo_agent 0)) /\
    beta (train_steps demo_net (demo_buffer_len 40) demo_sample
            demo_update_priorities demo_adam (S n) (demo_agent 0)) <= 1.
Proof.
  split; [vm_compute; discriminate|]. split; [vm_compute; discriminate|].
  apply (train_steps_beta_bounds unit unit unit unit demo_net (demo_buffer_len 40)
           demo_sample demo_update_priorities demo_adam (demo_agent 0));
    vm_compute; discriminate.
Defined.

(** ** [torch.quantile] stays within the row *)

Lemma In_sort_asc (z : Q) (l : list Q) : In z (sort_asc l) <-> In z l.
Proof.
  induction l as [|x l IH]; simpl; [tauto|].
  rewrite In_insert_sorted, IH. tauto.
Qed.

Lemma quantile_at_integer_rank (q : Q) (row : list Q) (k : Z) :
  q * (Q_of_nat (length row) - 1) == inject_Z k ->
  quantile q row == nth (Z.to_nat k) (sort_asc row) 0.
Proof.
  intros Hr. unfold quantile.
  assert (Hf : Qfloor (q * (Q_of_nat (length row) - 1)) = k).
  { apply Z.le_antisymm.
    - rewrite <- (Qfloor_Z k). apply Qfloor_resp_le. rewrite Hr. apply Qle_refl.
    - rewrite <- (Qfloor_Z k) at 1. apply Qfloor_resp_le. rewrite Hr. apply Qle_refl. }
  assert (Hc : Qceiling (q * (Q_of_nat (length row) - 1)) = k).
  { apply Z.le_antisymm.
    - rewrite <- (Qceiling_Z k) at 1. apply Qceiling_resp_le. rewrite Hr. apply Qle_refl.
    - rewrite <- (Qceiling_Z k). apply Qceiling_resp_le. rewrite Hr. apply Qle_refl. }
  rewrite Hf, Hc. unfold lerp. ring.
Qed.

Lemma quantile_within_row (q : Q) (row : list Q) :
  row <> [] -> 0 <= q -> q <= 1 ->
  exists lo hi,
    In lo row /\ In hi row /\
    (forall z, In z row -> lo <= z /\ z <= hi) /\
    lo <= quantile q row /\ quantile q row <= hi.
Proof.
  intros Hne H0 H1.
  set (s := sort_asc row).
  assert (Hn : (1 <= length row)%nat) by (destruct row; [congruence | simpl; lia]).
  assert (Hs : length s = length row) by apply length_sort_asc.
  exists (nth 0 s 0), (nth (length row - 1) s 0).
  assert (Hin : forall k, (k < length row)%nat -> In (nth k s 0) row)
    by (intros k Hk; apply In_sort_asc, nth_In; rewrite length_sort_asc; lia).
  split; [apply Hin; lia|]. split; [apply Hin; lia|]. split.
  - intros z Hz. apply In_sort_asc in Hz. fold s in Hz.
    apply (In_nth s z 0) in Hz. destruct Hz as (k & Hk & <-).
    split; apply sorted_nth_le; try exact (sort_asc_sorted row); lia.
  - assert (Hq0 : quantile 0 row == nth 0 s 0).
    { apply (quantile_at_integer_rank 0 row 0). ring. }
    assert (Hq1 : quantile 1 row == nth (length row - 1) s 0).
    { replace (length row - 1)%nat with (Z.to_nat (Z.of_nat (length row) - 1)) by lia.
      apply quantile_at_integer_rank. unfold Q_of_nat, Z.sub.
      rewrite inject_Z_plus, inject_Z_opp. change (inject_Z 1) with 1. ring. }
    split.
    + rewrite <- Hq0. apply quantile_mono; [exact Hne | apply Qle_refl | exact H0 | exact H1].
    + rewrite <- Hq1. apply quantile_mono; [exact Hne | exact H0 | exact H1 | apply Qle_refl].
Qed.

Lemma qsum_bounds (l : list Q) (lo hi : Q) :
  (forall z, In z l -> lo <= z /\ z <= hi) ->
  Q_of_nat (length l) * lo <= qsum l /\ qsum l <= Q_of_nat (length l) * hi.
Proof.
  induction l as [|x l IH]; intros H.
  - simpl. split; unfold Qle; simpl; lia.
  - simpl length. rewrite Q_of_nat_succ. unfold qsum. simpl. fold (qsum l).
    destruct (H x (or_introl eq_refl)).
    destruct IH as [IH1 IH2]; [intros z Hz; apply H; right; exact Hz|].
    split; lra.
Qed.

Lemma mean_between (l : list Q) (lo hi : Q) :
  l <> [] -> (forall z, In z l -> lo <= z /\ z <= hi) ->
  lo <= mean l /\ mean l <= hi.
Proof.
  intros Hne H. destruct (qsum_bounds l lo hi H) as [H1 H2].
  assert (Hn : 0 < Q_of_nat (length l))
    by (apply (Q_of_nat_lt 0); destruct l; [congruence | simpl; lia]).
  unfold mean. split.
  - apply Qle_shift_div_l; [exact Hn|]. rewrite Qmult_comm. exact H1.
  - apply Qle_shift_div_r; [exact Hn|]. rewrite Qmult_comm. exact H2.
Qed.

(** Each reduction [choose_action] accepts ("neutral", "risk-averse",
    "risk-seeking") maps a non-empty quantile row to a value between the
    row's smallest and largest entries. *)
Theorem reduction_within_row (risk_preference : string)
    (reduce : list Q -> Q) (row : list Q) :
  reduction risk_preference = Some reduce -> row <> [] ->
  exists lo hi,
    In lo row /\ In hi row /\
    (forall z, In z row -> lo <= z /\ z <= hi) /\
    lo <= reduce row /\ reduce row <= hi.
Proof.
  intros Hred Hne.
  destruct (quantile_within_row 0 row Hne (Qle_refl 0) ltac:(discriminate))
    as (lo & hi & Hlo & Hhi & Hall & _).
  unfold reduction in Hred.
  destruct (String.eqb risk_preference "neutral").
  - injection Hred as <-. exists lo, hi. split; [exact Hlo|]. split; [exact Hhi|].
    split; [exact Hall|]. apply mean_between; assumption.
  - destruct (String.eqb risk_preference "risk-averse").
    + injection Hred as <-. apply quantile_within_row;
        [exact Hne | discriminate | discriminate].
    + destruct (String.eqb risk_preference "risk-seeking"); [|discriminate Hred].
      injection Hred as <-. apply quantile_within_row;
        [exact Hne | discriminate | discriminate].
Qed.

Lemma reduction_within_row_witness :
  (reduction "risk-seeking" = Some (quantile (9#10)) /\ [4; 1; 7] <> []) /\
  exists lo hi,
    In lo [4; 1; 7] /\ In hi [4; 1; 7] /\
    (forall z, In z [4; 1; 7] -> lo <= z /\ z <= hi) /\
    lo <= quantile (9#10) [4; 1; 7] /\ quantile (9#10) [4; 1; 7] <= hi.
Proof.
  split; [split; [reflexivity | discriminate]|].
  apply (reduction_within_row "risk-seeking"); [reflexivity | discriminate].
Defined.

(** ** Target synchronisation followed by training *)

(** After [update_target_network], any number of training steps run with
    the target network frozen at the online parameters of the moment of
    the sync: the target network outputs what the online network output
    then, on every input. *)
Theorem sync_then_train_target_frozen {Obs Params OptState Buffer : Type}
    (net : Params -> Obs -> list (list Q)) (buffer_len : Buffer -> nat)
    (buffer_sample : Buffer -> nat -> Q -> Batch Obs)
    (buffer_update_priorities : Buffer -> list nat -> list Q -> Buffer)
    (adam_step : OptState -> Params -> (Params -> Q) -> Params * OptState)
    (ag : Agent Params OptState Buffer) (n : nat) :
  forall x,
    net (target_net (train_steps net buffer_len buffer_sample
                       buffer_update_priorities adam_step n
                       (update_target_network ag))) x =
    net (online_net ag) x.
Proof.
  intros x. f_equal.
  change (online_net ag) with (target_net (update_target_network ag)).
  generalize (update_target_network ag). clear ag.
  induction n as [|n IH]; intros ag; [reflexivity|].
  simpl. rewrite IH.
  destruct (train_step_fields Obs Params OptState Buffer net buffer_len
              buffer_sample buffer_update_priorities adam_step ag) as [H _].
  exact H.
Qed.
